(** * nyu-curp-2021, day 2: [mymath.factorial] and [hello_curp]

    A shallow embedding of the two Python programs of the tutorial:

    - [day2/exercise3/src/mymath/_factorial.py], the iterative factorial;
    - [day2/exercise1/hello_curp.py], the greeting script.

    Python's [int] is unbounded, so it is modelled by [Z].  What the
    interpreter provides ([range], [os.getenv], [print] and the encoder of
    standard output, the dynamic type check of [+]) lives in [Module Py];
    the two source files are embedded in [Module Factorial] and
    [Module HelloCurp]. *)

From Stdlib Require Import ZArith Lia Factorial.
From stdpp Require Import base list list_numbers strings gmap.

Local Open Scope Z_scope.
Local Open Scope string_scope.

(** ** The part of the Python runtime the programs use *)

Module Py.

(** The objects that can reach the functions below. *)
Inductive value : Type :=
| VInt (z : Z)
| VStr (s : string)
| VNone.

(** The exceptions the two programs can meet: [TypeError] from [+] and
    [range] on the wrong kind of object, [UnicodeEncodeError] from [print]
    when standard output cannot encode the text. *)
Inductive exn : Type :=
| TypeError
| UnicodeEncodeError.

(** How a call ends: with a value, or with a raised exception. *)
Inductive outcome (A : Type) : Type :=
| Returned (a : A)
| Raised (e : exn).
Arguments Returned {A} a.
Arguments Raised {A} e.

(** What a call can observe or change outside its own frame: the process
    environment read by [os.getenv], the text written by [print], and the
    encoder standard output was opened with.  [encodable] tells which texts
    holding characters outside ASCII that encoder takes; it depends on the
    locale and on [PYTHONIOENCODING], so it belongs to the process and not
    to the program. *)
Record World : Type := mkWorld {
  environ : gmap string string;
  stdout : string;
  encodable : string -> bool
}.

(** Computations: state passing over [World], with exceptions. *)
Definition M (A : Type) : Type := World -> outcome A * World.

Definition ret {A : Type} (a : A) : M A :=
  fun w => (Returned a, w).

Definition raise {A : Type} (e : exn) : M A :=
  fun w => (Raised e, w).

Definition bind {A B : Type} (c : M A) (k : A -> M B) : M B :=
  fun w =>
    match c w with
    | (Returned a, w') => k a w'
    | (Raised e, w') => (Raised e, w')
    end.

Declare Scope py_scope.
Delimit Scope py_scope with py.
Notation "x <- c ;; k" := (bind c (fun x => k))
  (at level 100, c at next level, right associativity) : py_scope.

(** [range(start, stop)] on integers: [start], [start + 1], ..., up to but
    excluding [stop]; empty when [stop <= start]. *)
Definition range (start stop : Z) : list Z :=
  seqZ start (stop - start).

(** [a + b]: integer addition, string concatenation, [TypeError] for every
    other pair of operands. *)
Definition add (a b : value) : M value :=
  match a, b with
  | VInt x, VInt y => ret (VInt (x + y))
  | VStr s, VStr t => ret (VStr (s +:+ t))
  | _, _ => raise TypeError
  end.

(** [range(start, stop)] as called: both arguments must be integers. *)
Definition range_call (start stop : value) : M (list Z) :=
  match start, stop with
  | VInt x, VInt y => ret (range x y)
  | _, _ => raise TypeError
  end.

(** [for i in xs: body], threading the variables the body assigns. *)
Fixpoint for_each {A S : Type} (xs : list A) (body : A -> S -> M S)
    (s : S) : M S :=
  match xs with
  | [] => ret s
  | i :: xs' => bind (body i s) (for_each xs' body)
  end.

(** [os.getenv(key)]: the value of the variable, [None] when it is unset. *)
Definition getenv (key : string) : M (option string) :=
  fun w => (Returned (environ w !! key), w).

Definition newline : string := String (Ascii.ascii_of_nat 10) EmptyString.

(** The characters below 128. *)
Definition is_ascii (c : Ascii.ascii) : bool :=
  match c with
  | Ascii.Ascii _ _ _ _ _ _ _ high => negb high
  end.

Fixpoint all_ascii (s : string) : bool :=
  match s with
  | EmptyString => true
  | String c s' => is_ascii c && all_ascii s'
  end.

(** Whether standard output can encode a text: always when the text is
    plain ASCII, and as its encoder decides otherwise. *)
Definition accepts (w : World) (s : string) : bool :=
  all_ascii s || encodable w s.

(** [print(s)]: the text is encoded as a whole before anything is written.
    When the encoder takes it, the text and a line end are appended to
    standard output; when it does not, [UnicodeEncodeError] is raised and
    nothing is written. *)
Definition print (s : string) : M unit :=
  fun w =>
    if accepts w s
    then (Returned tt,
          mkWorld (environ w) (stdout w +:+ s +:+ newline) (encodable w))
    else (Raised UnicodeEncodeError, w).

(** What an f-string field shows for an optional string: the string
    itself, or the text [None]. *)
Definition format_field (x : option string) : string :=
  match x with
  | Some s => s
  | None => "None"
  end.

End Py.

(** ** [mymath/_factorial.py] *)

Module Factorial.
Import Py.

(** [factorial(n: int) -> int]:
    [result = 1; for i in range(1, n + 1): result *= i; return result]. *)
Definition factorial (n : Z) : Z :=
  fold_left (fun result i => result * i) (range 1 (n + 1)) 1.

(** The number of times the loop body of [factorial n] runs. *)
Definition iterations (n : Z) : nat :=
  length (range 1 (n + 1)).

(** The same function as the interpreter runs it: the argument is any
    object, [n + 1] and [range] check its type, and the call happens in a
    world that it could read or write. *)
Definition factorial_call (n : value) : M value :=
  (stop <- add n (VInt 1);;
   its <- range_call (VInt 1) stop;;
   result <- for_each its (fun i result => ret (result * i)) 1;;
   ret (VInt result))%py.

(** A sequence of calls, one after the other in the same process; the
    results are collected in call order. *)
Fixpoint calls (ns : list Z) : M (list value) :=
  match ns with
  | [] => ret []
  | n :: ns' =>
      (r <- factorial_call (VInt n);;
       rs <- calls ns';;
       ret (r :: rs))%py
  end.

End Factorial.

(** ** [hello_curp.py] *)

Module HelloCurp.
Import Py.

(** [get_user_name()]:
    [name = os.getenv('USER')], then [name = os.getenv('USERNAME')] if
    [name is None], then [return name]. *)
Definition get_user_name : M (option string) :=
  (name <- getenv "USER";;
   name <- match name with
           | None => getenv "USERNAME"
           | Some _ => ret name
           end;;
   ret name)%py.

(** [main()], after [parser.parse_args()]: [user] is [args.user], [None]
    when [--user] was not given. *)
Definition main (user : option string) : M unit :=
  match user with
  | None =>
      (name <- get_user_name;;
       print ("Hi! Are you " +:+ format_field name +:+ "?"))%py
  | Some u => print ("Hi, " +:+ u +:+ "!")
  end.

End HelloCurp.

Import Py Factorial HelloCurp.

(** An encoder that takes nothing beyond ASCII, as standard output has
    under [PYTHONIOENCODING=ascii]. *)
Definition ascii_only : string -> bool := fun _ => false.

(** Sample processes for the concrete checks: an empty environment, one
    where only [USERNAME] is set, and one where both variables are. *)
Definition bare_world : World := mkWorld ∅ EmptyString ascii_only.


Definition user_world : World :=
  mkWorld (<[ "USER" := "ada" ]> {[ "USERNAME" := "grace" ]}) EmptyString
    ascii_only.


(** A name of one character outside ASCII (code 233), and a process whose
    [USER] is that name while standard output encodes ASCII only. *)
Definition accented_name : string :=
  String (Ascii.ascii_of_nat 233) EmptyString.

Definition accented_world : World :=
  mkWorld {[ "USER" := accented_name ]} EmptyString ascii_only.

(** The value of [result] in [factorial n] once the loop body has run for
    the first [m] elements of the range (for all of them, when the range
    has fewer than [m]). *)
Definition result_after (m : nat) (n : Z) : Z :=
  fold_left (fun result i => result * i) (take m (range 1 (n + 1))) 1.

(** ** The loop of [factorial] *)

Section Loop.

Implicit Types (n : Z) (k : nat) (w : World).

Lemma range_empty start stop : stop <= start -> range start stop = [].
Proof. intros Hle. unfold range. apply seqZ_nil. lia. Qed.

Lemma range_snoc k :
  range 1 (Z.of_nat (S k) + 1)
  = (range 1 (Z.of_nat k + 1) ++ [Z.of_nat (S k)])%list.
Proof.
  unfold range.
  replace (Z.of_nat (S k) + 1 - 1) with (Z.of_nat (S k)) by lia.
  replace (Z.of_nat k + 1 - 1) with (Z.of_nat k) by lia.
  rewrite seqZ_S. do 2 f_equal. lia.
Qed.

(** One more iteration multiplies the accumulator by the new index. *)
Lemma factorial_succ k :
  factorial (Z.of_nat (S k)) = factorial (Z.of_nat k) * Z.of_nat (S k).
Proof.
  unfold factorial. rewrite range_snoc, fold_left_app. reflexivity.
Qed.

Lemma factorial_zero : factorial 0 = 1.
Proof. reflexivity. Qed.

Lemma factorial_of_nat k : factorial (Z.of_nat k) = Z.of_nat (fact k).
Proof.
  induction k as [|k IH].
  - reflexivity.
  - rewrite factorial_succ, IH.
    change (fact (S k)) with (S k * fact k)%nat.
    rewrite Nat2Z.inj_mul. lia.
Qed.

Lemma factorial_below_zero n : n < 0 -> factorial n = 1.
Proof.
  intros Hneg. unfold factorial. rewrite range_empty by lia. reflexivity.
Qed.

(** In the world-passing model the loop neither raises nor touches the
    world, and computes the same fold. *)
Lemma for_each_product (its : list Z) (acc : Z) w :
  for_each its (fun i result => ret (result * i)) acc w
  = (Returned (fold_left (fun result i => result * i) its acc), w).
Proof.
  revert acc. induction its as [|i its IH]; intros acc; simpl.
  - reflexivity.
  - unfold bind, ret at 1. apply IH.
Qed.

Lemma factorial_call_int n w :
  factorial_call (VInt n) w = (Returned (VInt (factorial n)), w).
Proof.
  unfold factorial_call, bind. simpl.
  rewrite for_each_product. reflexivity.
Qed.

Lemma calls_results (ns : list Z) w :
  calls ns w = (Returned (map (fun n => VInt (factorial n)) ns), w).
Proof.
  induction ns as [|n ns IH]; simpl.
  - reflexivity.
  - unfold bind. rewrite factorial_call_int, IH. reflexivity.
Qed.

End Loop.

(** ** Properties of [factorial] *)

(** C1: for every integer [n >= 0], [factorial n] is the product of the
    integers from 1 to [n] (1 for the empty range), that is, the
    mathematical factorial [fact] of [n]. *)
Theorem factorial_is_fact (n : Z) :
  0 <= n -> factorial n = Z.of_nat (fact (Z.to_nat n)).
Proof.
  intros Hn. rewrite <- factorial_of_nat, Z2Nat.id by exact Hn. reflexivity.
Qed.

Lemma factorial_is_fact_witness :
  0 <= 6 /\ factorial 6 = Z.of_nat (fact (Z.to_nat 6)).
Proof. split; [lia | apply (factorial_is_fact 6); lia]. Defined.

(** C2: for every integer [n >= 1], [factorial n = n * factorial (n - 1)]. *)
Theorem factorial_recurrence (n : Z) :
  1 <= n -> factorial n = n * factorial (n - 1).
Proof.
  intros Hn.
  destruct (Z.to_nat n) as [|k] eqn:Hk; [lia|].
  assert (Hn' : n = Z.of_nat (S k)) by lia.
  rewrite Hn', factorial_succ.
  replace (Z.of_nat (S k) - 1) with (Z.of_nat k) by lia.
  apply Z.mul_comm.
Qed.

Lemma factorial_recurrence_witness :
  1 <= 4 /\ factorial 4 = 4 * factorial (4 - 1).
Proof. split; [lia | apply (factorial_recurrence 4); lia]. Defined.

(** C3: the listed values: [factorial 0 = 1], [factorial 1 = 1],
    [factorial 5 = 120] and [factorial 10 = 3628800]. *)
Theorem factorial_values :
  factorial 0 = 1 /\ factorial 1 = 1 /\
  factorial 5 = 120 /\ factorial 10 = 3628800.
Proof. repeat split; vm_compute; reflexivity. Qed.

(** C4: for every negative integer [n], the loop of [factorial n] runs zero
    times and the result is 1. *)
Theorem factorial_negative (n : Z) :
  n < 0 -> iterations n = 0%nat /\ factorial n = 1.
Proof.
  intros Hneg. split.
  - unfold iterations. rewrite range_empty by lia. reflexivity.
  - apply factorial_below_zero, Hneg.
Qed.

Lemma factorial_negative_witness :
  -7 < 0 /\ iterations (-7) = 0%nat /\ factorial (-7) = 1.
Proof. split; [lia | apply (factorial_negative (-7)); lia]. Defined.

(** C6: on every integer argument, negative ones included, the call
    returns an integer and raises nothing. *)
Theorem factorial_call_total (n : Z) (w : World) :
  exists r : Z,
    fst (factorial_call (VInt n) w) = Returned (VInt r) /\
    forall e : exn, fst (factorial_call (VInt n) w) <> Raised e.
Proof.
  exists (factorial n). rewrite factorial_call_int. simpl.
  split; [reflexivity | discriminate].
Qed.

(** C7: [factorial] has no hidden state: in any two sequences of calls,
    started in any two worlds, two calls with the same argument [n] return
    the same value, and the world is left as it was. *)
Theorem factorial_deterministic (ns ns' : list Z) (w w' : World)
    (i j : nat) (n : Z) :
  ns !! i = Some n -> ns' !! j = Some n ->
  exists (rs rs' : list value) (r : value),
    calls ns w = (Returned rs, w) /\
    calls ns' w' = (Returned rs', w') /\
    rs !! i = Some r /\ rs' !! j = Some r.
Proof.
  intros Hi Hj.
  exists (map (fun m => VInt (factorial m)) ns),
         (map (fun m => VInt (factorial m)) ns'),
         (VInt (factorial n)).
  rewrite !calls_results.
  repeat split.
  - change (map ?f ns) with (f <$> ns). rewrite list_lookup_fmap, Hi. reflexivity.
  - change (map ?f ns') with (f <$> ns'). rewrite list_lookup_fmap, Hj. reflexivity.
Qed.

Lemma factorial_deterministic_witness :
  exists (rs rs' : list value) (r : value),
    calls [3; 5; 3] bare_world = (Returned rs, bare_world) /\
    calls [5; 3] user_world = (Returned rs', user_world) /\
    rs !! 2%nat = Some r /\ rs' !! 1%nat = Some r.
Proof.
  apply (factorial_deterministic [3; 5; 3] [5; 3] bare_world user_world
           2 1 3); reflexivity.
Defined.

(** C9: for every integer [n], negative, zero or positive,
    [factorial n >= 1]. *)
Theorem factorial_ge_1 (n : Z) : 1 <= factorial n.
Proof.
  destruct (Z.lt_ge_cases n 0) as [Hneg | Hpos].
  - rewrite factorial_below_zero by exact Hneg. lia.
  - rewrite <- (Z2Nat.id n), factorial_of_nat by exact Hpos.
    pose proof (lt_O_fact (Z.to_nat n)). lia.
Qed.

(** ** Properties of [hello_curp] *)

Section Greeting.

Implicit Types (w : World) (u s : string).


Lemma get_user_name_fallback w :
  environ w !! "USER" = None ->
  get_user_name w = (Returned (environ w !! "USERNAME"), w).
Proof.
  intros Hu. unfold get_user_name, bind, getenv. rewrite Hu. reflexivity.
Qed.

(** Every encoder takes plain ASCII. *)
Lemma accepts_ascii w s : all_ascii s = true -> accepts w s = true.
Proof. intros Hs. unfold accepts. rewrite Hs. reflexivity. Qed.

Lemma print_accepted w s :
  accepts w s = true ->
  print s w
  = (Returned tt,
     mkWorld (environ w) (stdout w +:+ s +:+ newline) (encodable w)).
Proof. intros Hs. unfold print. rewrite Hs. reflexivity. Qed.


(** Without [--user], [main] prints the greeting for whatever
    [get_user_name] returned. *)
Lemma main_without_user w (name : option string) :
  get_user_name w = (Returned name, w) ->
  main None w = print ("Hi! Are you " +:+ format_field name +:+ "?") w.
Proof.
  intros Hname. unfold main, bind. rewrite Hname. reflexivity.
Qed.

End Greeting.




(** C10: without [--user] and with neither [USER] nor [USERNAME] set,
    [get_user_name] returns [None] and [main] prints the line
    [Hi! Are you None?]; nothing is raised and no default name is used. *)
Theorem no_user_name_greeting (w : World) :
  environ w !! "USER" = None ->
  environ w !! "USERNAME" = None ->
  get_user_name w = (Returned None, w) /\
  main None w
  = (Returned tt,
     mkWorld (environ w) (stdout w +:+ "Hi! Are you None?" +:+ newline)
       (encodable w)).
Proof.
  intros Hu Hun.
  pose proof (get_user_name_fallback w Hu) as Hname. rewrite Hun in Hname.
  split; [exact Hname|].
  rewrite (main_without_user w None Hname).
  apply (print_accepted w "Hi! Are you None?"), accepts_ascii. reflexivity.
Qed.

Lemma no_user_name_greeting_witness :
  environ bare_world !! "USER" = None /\
  environ bare_world !! "USERNAME" = None /\
  get_user_name bare_world = (Returned None, bare_world) /\
  main None bare_world
  = (Returned tt,
     mkWorld (environ bare_world)
       (stdout bare_world +:+ "Hi! Are you None?" +:+ newline)
       (encodable bare_world)).
Proof.
  split; [reflexivity|]. split; [reflexivity|].
  apply (no_user_name_greeting bare_world); reflexivity.
Defined.

(** ** More on the loop of [factorial] *)

Section Products.

Implicit Types (m n k acc : Z) (its : list Z).

(** The loop started from [acc] gives [acc] times the loop started
    from 1. *)
Lemma fold_product_from its acc :
  fold_left (fun result i => result * i) its acc
  = acc * fold_left (fun result i => result * i) its 1.
Proof.
  revert acc. induction its as [|i its IH]; intros acc; simpl.
  - lia.
  - rewrite (IH (acc * i)), (IH (1 * i)). lia.
Qed.

Lemma range_split m n :
  0 <= m <= n ->
  range 1 (n + 1) = (range 1 (m + 1) ++ range (m + 1) (n + 1))%list.
Proof.
  intros Hmn. unfold range.
  replace (n + 1 - 1) with (m + (n - m)) by lia.
  rewrite seqZ_app by lia. f_equal.
  - f_equal. lia.
  - f_equal; lia.
Qed.

Lemma factorial_split m n :
  0 <= m <= n ->
  factorial n
  = factorial m * fold_left (fun result i => result * i)
                    (range (m + 1) (n + 1)) 1.
Proof.
  intros Hmn. unfold factorial.
  rewrite (range_split m n Hmn), fold_left_app.
  apply fold_product_from.
Qed.

Lemma factorial_positive n : 0 < factorial n.
Proof.
  destruct (Z.lt_ge_cases n 0) as [Hneg | Hpos].
  - rewrite factorial_below_zero by exact Hneg. lia.
  - rewrite <- (Z2Nat.id n), factorial_of_nat by exact Hpos.
    pose proof (lt_O_fact (Z.to_nat n)). lia.
Qed.

Lemma factorial_next n : 0 <= n -> factorial (n + 1) = factorial n * (n + 1).
Proof.
  intros Hn.
  replace (n + 1) with (Z.of_nat (S (Z.to_nat n))) by lia.
  rewrite factorial_succ. rewrite Z2Nat.id by exact Hn. reflexivity.
Qed.

Lemma factorial_le m n : m <= n -> factorial m <= factorial n.
Proof.
  intros Hmn.
  destruct (Z.lt_ge_cases m 0) as [Hneg | Hpos].
  - rewrite (factorial_below_zero m Hneg).
    pose proof (factorial_positive n). lia.
  - rewrite <- (Z2Nat.id m), <- (Z2Nat.id n) by lia.
    rewrite !factorial_of_nat. apply Nat2Z.inj_le, fact_le. lia.
Qed.

End Products.

(** Up to 20 the result still fits a signed 64-bit word; 21 is the first
    argument whose factorial does not fit 64 bits. *)
Lemma factorial_fits_64_bits (n : Z) : n <= 20 -> factorial n < 2 ^ 63.
Proof.
  intros Hn. apply Z.le_lt_trans with (factorial 20).
  - apply factorial_le, Hn.
  - vm_compute. reflexivity.
Qed.

(** C5: for every input large enough for the result to exceed 64 bits,
    that is for every [n >= 21] and so for [n = 25], the returned value is
    the exact factorial of [n]; it is above [2^64] and is not its own
    residue modulo [2^64]: nothing was truncated or reduced. *)
Theorem factorial_exact_beyond_64_bits (n : Z) :
  21 <= n ->
  factorial n = Z.of_nat (fact (Z.to_nat n)) /\
  2 ^ 64 < factorial n /\
  factorial n mod 2 ^ 64 <> factorial n.
Proof.
  intros Hn.
  assert (Hbig : 2 ^ 64 < factorial n).
  { apply Z.lt_le_trans with (factorial 21).
    - vm_compute. reflexivity.
    - apply factorial_le, Hn. }
  split; [|split].
  - rewrite <- factorial_of_nat, Z2Nat.id by lia. reflexivity.
  - exact Hbig.
  - pose proof (Z.mod_pos_bound (factorial n) (2 ^ 64) ltac:(lia)). lia.
Qed.

Lemma factorial_exact_beyond_64_bits_witness :
  21 <= 25 /\
  factorial 25 = Z.of_nat (fact (Z.to_nat 25)) /\
  2 ^ 64 < factorial 25 /\
  factorial 25 mod 2 ^ 64 <> factorial 25.
Proof.
  split; [lia | apply (factorial_exact_beyond_64_bits 25); lia].
Defined.

(** X1: the loop body of [factorial n] runs exactly [n] times when
    [n >= 0], and not at all when [n] is negative. *)
Theorem factorial_iterations (n : Z) : iterations n = Z.to_nat n.
Proof.
  unfold iterations, range. rewrite length_seqZ. f_equal. lia.
Qed.

(** X2: after the first [m] iterations the accumulator holds the factorial
    of [m]; once the range is used up it holds the factorial of [n]. *)
Theorem factorial_loop_invariant (m : nat) (n : Z) :
  result_after m n = factorial (Z.min (Z.of_nat m) n).
Proof.
  unfold result_after.
  destruct (Z.lt_ge_cases n 0) as [Hneg | Hpos].
  - rewrite range_empty by lia. rewrite take_nil. simpl.
    symmetry. apply factorial_below_zero. lia.
  - destruct (Z.le_gt_cases (Z.of_nat m) n) as [Hle | Hgt].
    + rewrite Z.min_l by exact Hle.
      rewrite (range_split (Z.of_nat m) n) by lia.
      rewrite take_app_length'.
      * reflexivity.
      * unfold range. rewrite length_seqZ. lia.
    + rewrite Z.min_r by lia.
      rewrite take_ge.
      * reflexivity.
      * unfold range. rewrite length_seqZ. lia.
Qed.

(** X3: [factorial] is monotone on all integers: [m <= n] gives
    [factorial m <= factorial n], negative arguments included. *)
Theorem factorial_monotone (m n : Z) :
  m <= n -> factorial m <= factorial n.
Proof. apply factorial_le. Qed.

Lemma factorial_monotone_witness :
  -2 <= 3 /\ factorial (-2) <= factorial 3.
Proof. split; [lia | apply (factorial_monotone (-2) 3); lia]. Defined.

(** X4: from 1 on, [factorial] is strictly increasing:
    [1 <= m < n] gives [factorial m < factorial n]. *)
Theorem factorial_strictly_increasing (m n : Z) :
  1 <= m -> m < n -> factorial m < factorial n.
Proof.
  intros Hm Hmn.
  apply Z.lt_le_trans with (factorial (m + 1)).
  - rewrite factorial_next by lia.
    pose proof (factorial_positive m). nia.
  - apply factorial_le. lia.
Qed.

Lemma factorial_strictly_increasing_witness :
  1 <= 3 /\ 3 < 5 /\ factorial 3 < factorial 5.
Proof.
  split; [lia|]. split; [lia|].
  apply (factorial_strictly_increasing 3 5); lia.
Defined.

(** X5: for [m <= n], [factorial m] divides [factorial n]. *)
Theorem factorial_divides_factorial (m n : Z) :
  m <= n -> (factorial m | factorial n).
Proof.
  intros Hmn.
  destruct (Z.lt_ge_cases m 0) as [Hneg | Hpos].
  - rewrite (factorial_below_zero m Hneg). apply Z.divide_1_l.
  - rewrite (factorial_split m n) by lia. apply Z.divide_factor_l.
Qed.

Lemma factorial_divides_factorial_witness :
  3 <= 5 /\ (factorial 3 | factorial 5).
Proof. split; [lia | apply (factorial_divides_factorial 3 5); lia]. Defined.

(** X6: every integer [k] with [1 <= k <= n] divides [factorial n]. *)
Theorem factorial_divisible_by_index (k n : Z) :
  1 <= k -> k <= n -> (k | factorial n).
Proof.
  intros Hk Hkn.
  apply Z.divide_trans with (factorial k).
  - replace k with (k - 1 + 1) at 2 by lia.
    rewrite factorial_next by lia.
    replace (k - 1 + 1) with k by lia. apply Z.divide_factor_r.
  - destruct (Z.lt_ge_cases k 0) as [Hneg | Hpos]; [lia|].
    rewrite (factorial_split k n) by lia. apply Z.divide_factor_l.
Qed.

Lemma factorial_divisible_by_index_witness :
  1 <= 4 /\ 4 <= 6 /\ (4 | factorial 6).
Proof.
  split; [lia|]. split; [lia|].
  apply (factorial_divisible_by_index 4 6); lia.
Defined.

(** X7: [factorial n] is 1 exactly when [n <= 1]. *)
Theorem factorial_eq_1_iff (n : Z) : factorial n = 1 <-> n <= 1.
Proof.
  split.
  - intros H1.
    destruct (Z.le_gt_cases n 1) as [Hle | Hgt]; [exact Hle|].
    pose proof (factorial_le 2 n ltac:(lia)) as H2.
    change (factorial 2) with 2 in H2. lia.
  - intros Hle.
    destruct (Z.lt_ge_cases n 0) as [Hneg | Hpos].
    + apply factorial_below_zero, Hneg.
    + assert (Hn : n = 0 \/ n = 1) by lia.
      destruct Hn as [-> | ->]; reflexivity.
Qed.

(** X8: the result grows at least exponentially:
    [2 ^ (n - 1) <= factorial n] for [n >= 1]. *)
Theorem factorial_exponential_lower_bound (n : Z) :
  1 <= n -> 2 ^ (n - 1) <= factorial n.
Proof.
  intros Hn.
  replace n with (Z.of_nat (S (Z.to_nat (n - 1)))) by lia.
  generalize (Z.to_nat (n - 1)) as k. clear n Hn.
  induction k as [|k IH].
  - vm_compute. discriminate.
  - rewrite factorial_succ.
    replace (Z.of_nat (S (S k)) - 1) with (Z.succ (Z.of_nat (S k) - 1)) by lia.
    rewrite Z.pow_succ_r by lia.
    pose proof (factorial_positive (Z.of_nat (S k))). nia.
Qed.

Lemma factorial_exponential_lower_bound_witness :
  1 <= 5 /\ 2 ^ (5 - 1) <= factorial 5.
Proof.
  split; [lia | apply (factorial_exponential_lower_bound 5); lia].
Defined.

(** X9: called on an object that is not an integer, the first step
    [n + 1] raises [TypeError]; whatever would follow it, [range] and the
    loop included, is not run, so the call ends with [TypeError] and leaves
    the world as it was. *)
Theorem factorial_call_non_integer (v : value) (w : World) :
  (forall z : Z, v <> VInt z) ->
  add v (VInt 1) w = (Raised TypeError, w) /\
  (forall (B : Type) (rest : value -> M B),
     bind (add v (VInt 1)) rest w = (Raised TypeError, w)) /\
  factorial_call v w = (Raised TypeError, w).
Proof.
  intros Hv.
  assert (Hadd : add v (VInt 1) w = (Raised TypeError, w)).
  { destruct v as [z | s |]; [destruct (Hv z) | |]; reflexivity. }
  assert (Hrest : forall (B : Type) (rest : value -> M B),
             bind (add v (VInt 1)) rest w = (Raised TypeError, w)).
  { intros B rest. unfold bind. rewrite Hadd. reflexivity. }
  split; [exact Hadd|]. split; [exact Hrest|].
  unfold factorial_call. apply Hrest.
Qed.

Lemma factorial_call_non_integer_witness :
  (forall z : Z, VNone <> VInt z) /\
  add VNone (VInt 1) bare_world = (Raised TypeError, bare_world) /\
  (forall (B : Type) (rest : value -> M B),
     bind (add VNone (VInt 1)) rest bare_world
     = (Raised TypeError, bare_world)) /\
  factorial_call VNone bare_world = (Raised TypeError, bare_world).
Proof.
  split; [discriminate|].
  apply (factorial_call_non_integer VNone bare_world). discriminate.
Defined.

(** ** More on [hello_curp] *)

Section Lines.

Implicit Types (s t a b : string) (w : World).

Lemma length_append s t :
  String.length (s +:+ t) = (String.length s + String.length t)%nat.
Proof.
  induction s as [|c s IH]; simpl; [reflexivity | rewrite IH; reflexivity].
Qed.

Lemma append_cancel_l s a b : s +:+ a = s +:+ b -> a = b.
Proof.
  induction s as [|c s IH]; simpl; intros Heq.
  - exact Heq.
  - injection Heq as Heq. apply IH, Heq.
Qed.


(** A printed line is never empty: appending one changes the text. *)
Lemma append_line_differs s t : s +:+ t +:+ newline <> s.
Proof.
  intros Heq. apply (f_equal String.length) in Heq.
  rewrite !length_append in Heq. simpl in Heq. lia.
Qed.

Lemma get_user_name_returns w :
  get_user_name w
  = (Returned (match environ w !! "USER" with
               | Some u => Some u
               | None => environ w !! "USERNAME"
               end), w).
Proof.
  unfold get_user_name, bind, getenv.
  destruct (environ w !! "USER"); reflexivity.
Qed.

(** What [print] leaves on standard output, by how it ended. *)
Lemma print_returned_stdout s w :
  fst (print s w) = Returned tt ->
  stdout (snd (print s w)) = stdout w +:+ s +:+ newline.
Proof.
  unfold print. destruct (accepts w s); simpl; [reflexivity | discriminate].
Qed.

Lemma print_raised_stdout s w :
  fst (print s w) <> Returned tt -> stdout (snd (print s w)) = stdout w.
Proof.
  unfold print. destruct (accepts w s); simpl; [congruence | reflexivity].
Qed.

Lemma main_none_run w (name : option string) :
  fst (get_user_name w) = Returned name ->
  main None w = print ("Hi! Are you " +:+ format_field name +:+ "?") w.
Proof.
  intros Hname. unfold main, bind.
  rewrite get_user_name_returns in Hname |- *.
  simpl in Hname. injection Hname as <-. reflexivity.
Qed.

End Lines.

(** X10: [get_user_name] returns [None] exactly when neither [USER] nor
    [USERNAME] is set; a variable set to the empty string counts as set. *)
Theorem get_user_name_none_iff (w : World) :
  fst (get_user_name w) = Returned None
  <-> environ w !! "USER" = None /\ environ w !! "USERNAME" = None.
Proof.
  rewrite get_user_name_returns. simpl.
  destruct (environ w !! "USER") as [u|]; split.
  - intros [=].
  - intros [[=] _].
  - intros [= ->]. split; reflexivity.
  - intros [_ ->]. reflexivity.
Qed.




(** X13: the output tells whether [--user] was given: from the same
    standard output, and unless both runs raise, a run with [--user] never
    leaves the text that a run without it leaves. *)
Theorem main_branches_distinct (u : string) (w w' : World) :
  stdout w = stdout w' ->
  fst (main (Some u) w) = Returned tt \/ fst (main None w') = Returned tt ->
  stdout (snd (main (Some u) w)) <> stdout (snd (main None w')).
Proof.
  intros Hout Hrun Heq.
  rewrite (main_none_run w' _ (f_equal fst (get_user_name_returns w')))
    in Hrun, Heq.
  unfold main in Hrun, Heq.
  set (tu := "Hi, " +:+ u +:+ "!") in *.
  set (tn := "Hi! Are you " +:+ format_field _ +:+ "?") in *.
  destruct (fst (print tu w)) as [[]|e] eqn:Hu;
    destruct (fst (print tn w')) as [[]|e'] eqn:Hn.
  - rewrite (print_returned_stdout tu w Hu) in Heq.
    rewrite (print_returned_stdout tn w' Hn) in Heq.
    rewrite Hout in Heq. apply append_cancel_l in Heq.
    subst tu tn. simpl in Heq. discriminate Heq.
  - rewrite (print_returned_stdout tu w Hu) in Heq.
    rewrite (print_raised_stdout tn w') in Heq by (rewrite Hn; discriminate).
    rewrite <- Hout in Heq. exact (append_line_differs _ _ Heq).
  - rewrite (print_raised_stdout tu w) in Heq by (rewrite Hu; discriminate).
    rewrite (print_returned_stdout tn w' Hn) in Heq.
    rewrite Hout in Heq. symmetry in Heq.
    exact (append_line_differs _ _ Heq).
  - destruct Hrun as [Hrun | Hrun]; discriminate Hrun.
Qed.

Lemma main_branches_distinct_witness :
  stdout bare_world = stdout accented_world /\
  (fst (main (Some "ada") bare_world) = Returned tt \/
   fst (main None accented_world) = Returned tt) /\
  stdout (snd (main (Some "ada") bare_world))
  <> stdout (snd (main None accented_world)).
Proof.
  split; [reflexivity|]. split; [left; reflexivity|].
  apply (main_branches_distinct "ada" bare_world accented_world);
    [reflexivity | left; reflexivity].
Defined.


